(** * Dense random-walk graph of PecanPy: transition probabilities

    Shallow embedding of [src/pecanpy/rw/dense_rw.py] (class [DenseRWGraph]):
    [get_average_weights], [has_nbrs], [get_normalized_probs] (node2vec) and
    [get_extended_normalized_probs] (node2vec+).

    Arrays are lists, the dense matrices [data] and [nonzero] are lists of
    rows, and node indices are natural numbers.  A call that raises, or
    that reads outside an array, has no result ([None]).

    Numbers are IEEE-754 values with rounding abstracted away: a finite
    value is an exact rational, and the three special values that a
    division by zero produces are kept, so that what the code returns on a
    zero sum or on a zero neighbour count can be stated.  Addition is then
    associative and commutative, and the order in which a sum is
    accumulated does not matter. *)

From Stdlib Require Import QArith Qcanon Lqa.
From stdpp Require Import base numbers list option.

Local Open Scope Qc_scope.

(** ** Numbers *)

(** A float64 without rounding.  Signed zeros are not distinguished: zero
    stands for [+0.0], which is what a sum of non-negative weights or a
    neighbour count gives. *)
Inductive fval : Type :=
  | Fin (x : Qc)
  | PInf
  | NInf
  | NaN.

Definition fzero : fval := Fin 0.
Definition fone : fval := Fin 1.

Definition is_fin (x : fval) : bool :=
  match x with Fin _ => true | _ => false end.

(** Sign of a value that is not NaN ([Eq] for zero; NaN is given [Eq] and
    is never asked). *)
Definition fsign (x : fval) : comparison :=
  match x with
  | Fin a => 0 ?= a
  | PInf => Lt
  | NInf => Gt
  | NaN => Eq
  end.

(** [Lt] reads "0 < x", [Gt] reads "0 > x". *)
Definition sign_mul (s t : comparison) : comparison :=
  match s, t with
  | Eq, _ | _, Eq => Eq
  | Lt, Lt | Gt, Gt => Lt
  | Lt, Gt | Gt, Lt => Gt
  end.

(** The infinite value of a given sign; a zero sign is the invalid
    operation ([0 * inf], [0 / 0]). *)
Definition inf_of_sign (s : comparison) : fval :=
  match s with Lt => PInf | Gt => NInf | Eq => NaN end.

Definition fadd (x y : fval) : fval :=
  match x, y with
  | Fin a, Fin b => Fin (a + b)
  | NaN, _ | _, NaN => NaN
  | PInf, NInf | NInf, PInf => NaN
  | PInf, _ | _, PInf => PInf
  | NInf, _ | _, NInf => NInf
  end.

Definition fneg (x : fval) : fval :=
  match x with
  | Fin a => Fin (- a)
  | PInf => NInf
  | NInf => PInf
  | NaN => NaN
  end.

Definition fsub (x y : fval) : fval := fadd x (fneg y).

Definition fmul (x y : fval) : fval :=
  match x, y with
  | Fin a, Fin b => Fin (a * b)
  | NaN, _ | _, NaN => NaN
  | _, _ => inf_of_sign (sign_mul (fsign x) (fsign y))
  end.

(** IEEE division, as numpy performs it on arrays: no exception, a zero
    divisor gives an infinity or NaN. *)
Definition fdiv (x y : fval) : fval :=
  match x, y with
  | NaN, _ | _, NaN => NaN
  | Fin a, Fin b =>
      if decide (b = 0) then inf_of_sign (fsign x) else Fin (a / b)
  | Fin _, _ => Fin 0
  | _, Fin b => if decide (b = 0) then x else inf_of_sign (sign_mul (fsign x) (fsign y))
  | _, _ => NaN
  end.

(** [x < y] on floats: false as soon as one side is NaN. *)
Definition fltb (x y : fval) : bool :=
  match x, y with
  | NaN, _ | _, NaN => false
  | Fin a, Fin b => bool_decide (a < b)
  | NInf, NInf | PInf, _ | _, NInf => false
  | _, _ => true
  end.

(** [np.minimum]: NaN if either argument is. *)
Definition fmin (x y : fval) : fval :=
  match x, y with
  | NaN, _ | _, NaN => NaN
  | _, _ => if fltb y x then y else x
  end.

(** Integer to float, for the neighbour counts. *)
Definition of_nat (n : nat) : fval := Fin (Qc_of_Z (Z.of_nat n)).

(** Division of two scalars inside a jitted function: numba's default error
    model raises ZeroDivisionError on a zero divisor. *)
Definition sdiv (x y : fval) : option fval :=
  match y with
  | Fin b => if decide (b = 0) then None else Some (fdiv x y)
  | _ => Some (fdiv x y)
  end.

(** [a.sum()]: accumulation from zero, left to right. *)
Definition fsum (a : list fval) : fval := foldl fadd fzero a.

(** ** Arrays *)

(** [mask.sum()]: number of true cells. *)
Definition count_true (mask : list bool) : nat := length (filter Is_true mask).

(** [a[mask]]: the entries at the true positions, in order. *)
Fixpoint mask_select {A} (mask : list bool) (a : list A) : list A :=
  match mask, a with
  | b :: mask, x :: a =>
      if b then x :: mask_select mask a else mask_select mask a
  | _, _ => []
  end.

(** [a[mask] = f(a[mask])] for an elementwise [f] (in-place operations with
    a scalar such as [a[mask] /= q] and [a[mask] = c]). *)
Definition mask_update {A} (mask : list bool) (f : A → A) (a : list A) : list A :=
  zip_with (λ (b : bool) x, if b then f x else x) mask a.

(** [a[mask] *= alpha] where [alpha] has one entry per true position. *)
Fixpoint mask_scatter_mul (mask : list bool) (a alpha : list fval) : list fval :=
  match mask, a with
  | b :: mask, x :: a =>
      if b then
        match alpha with
        | c :: alpha => fmul x c :: mask_scatter_mul mask a alpha
        | [] => x :: mask_scatter_mul mask a []
        end
      else x :: mask_scatter_mul mask a alpha
  | _, _ => a
  end.

(** [a[i] = x].  Out of range there is no result (IndexError in Python, an
    unchecked access under numba). *)
Definition set_item {A} (a : list A) (i : nat) (x : A) : option (list A) :=
  if decide (i < length a)%nat then Some (<[i:=x]> a) else None.

(** ** The graph operations *)

(** [get_average_weights]: row sums of [data] over row counts of [nonzero]
    (plain numpy: the division is IEEE). *)
Definition get_average_weights (data : list (list fval)) (nonzero : list (list bool))
    : list fval :=
  let deg_ary := map fsum data in
  let n_nbrs_ary := map count_true nonzero in
  zip_with (λ d n, fdiv d (of_nat n)) deg_ary n_nbrs_ary.

(** [has_nbrs]: scan of row [idx], true at the first true cell. *)
Definition has_nbrs (nonzero : list (list bool)) (idx : nat) : option bool :=
  row ← nonzero !! idx;
  Some (existsb id row).

(** Lines 77-90 of [get_normalized_probs]: the biased weights of the
    neighbours of [cur_idx], before normalisation. *)
Definition classic_unnormalized (data : list (list fval)) (nonzero : list (list bool))
    (p q : fval) (cur_idx : nat) (prev_idx : option nat) : option (list fval) :=
  nbrs_ind ← nonzero !! cur_idx;
  unnormalized_probs ← data !! cur_idx;
  unnormalized_probs ←
    match prev_idx with
    | Some prev_idx =>
        prev_nbrs ← nonzero !! prev_idx;
        let non_com_nbr := zip_with andb nbrs_ind (map negb prev_nbrs) in
        non_com_nbr ← set_item non_com_nbr prev_idx false;
        let unnormalized_probs :=
          mask_update non_com_nbr (λ x, fdiv x q) unnormalized_probs in
        x ← unnormalized_probs !! prev_idx;
        x ← sdiv x p;
        set_item unnormalized_probs prev_idx x
    | None => Some unnormalized_probs
    end;
  Some (mask_select nbrs_ind unnormalized_probs).

(** The shared tail: [unnormalized_probs / unnormalized_probs.sum()]. *)
Definition normalize (unnormalized_probs : list fval) : list fval :=
  map (λ x, fdiv x (fsum unnormalized_probs)) unnormalized_probs.

(** [get_normalized_probs] (node2vec).  [average_weight_ary] is a parameter
    of the source function that its body never reads. *)
Definition get_normalized_probs (data : list (list fval)) (nonzero : list (list bool))
    (p q : fval) (cur_idx : nat) (prev_idx : option nat)
    (average_weight_ary : list fval) : option (list fval) :=
  normalize <$> classic_unnormalized data nonzero p q cur_idx prev_idx.

(** Lines 107-133 of [get_extended_normalized_probs]. *)
Definition extended_unnormalized (data : list (list fval)) (nonzero : list (list bool))
    (p q : fval) (cur_idx : nat) (prev_idx : option nat)
    (average_weight_ary : list fval) : option (list fval) :=
  cur_nbrs_ind ← nonzero !! cur_idx;
  unnormalized_probs ← data !! cur_idx;
  unnormalized_probs ←
    match prev_idx with
    | Some prev_idx =>
        prev_nbrs_weight ← data !! prev_idx;
        let inout_ind :=
          zip_with andb cur_nbrs_ind
            (zip_with fltb prev_nbrs_weight average_weight_ary) in
        inout_ind ← set_item inout_ind prev_idx false;
        let t := zip_with fdiv (mask_select inout_ind prev_nbrs_weight)
                               (mask_select inout_ind average_weight_ary) in
        inv_q ← sdiv fone q;
        let alpha := map (λ t, fadd inv_q (fmul (fsub fone inv_q) t)) t in
        avg_cur ← average_weight_ary !! cur_idx;
        let noisy :=
          map (λ x, fltb x avg_cur) (mask_select inout_ind unnormalized_probs) in
        let alpha := mask_update noisy (λ _, fmin fone inv_q) alpha in
        let unnormalized_probs :=
          mask_scatter_mul inout_ind unnormalized_probs alpha in
        x ← unnormalized_probs !! prev_idx;
        x ← sdiv x p;
        set_item unnormalized_probs prev_idx x
    | None => Some unnormalized_probs
    end;
  Some (mask_select cur_nbrs_ind unnormalized_probs).

(** [get_extended_normalized_probs] (node2vec+). *)
Definition get_extended_normalized_probs (data : list (list fval))
    (nonzero : list (list bool)) (p q : fval) (cur_idx : nat)
    (prev_idx : option nat) (average_weight_ary : list fval)
    : option (list fval) :=
  normalize <$>
    extended_unnormalized data nonzero p q cur_idx prev_idx average_weight_ary.

(** ** Vocabulary of the statements *)

(** Shapes: [data] and [nonzero] are [n] by [n], the average-weight vector
    has [n] entries.  The elementwise operations of the model stop at the
    shorter operand; on a well-shaped graph all operands have length [n]. *)
Definition wf_graph (n : nat) (data : list (list fval))
    (nonzero : list (list bool)) (average_weight_ary : list fval) : Prop :=
  length data = n ∧ length nonzero = n ∧ length average_weight_ary = n ∧
  Forall (λ row, length row = n) data ∧
  Forall (λ row, length row = n) nonzero.

(** The previous node, when there is one, is a node of the graph. *)
Definition prev_ok (n : nat) (prev_idx : option nat) : Prop :=
  from_option (λ prev, (prev < n)%nat) True prev_idx.

(** A finite value with a given property of its rational. *)
Definition fin_with (P : Qc → Prop) (x : fval) : Prop :=
  match x with Fin a => P a | _ => False end.

Definition fpos : fval → Prop := fin_with (λ a, 0 < a).
Definition fnonneg : fval → Prop := fin_with (λ a, 0 ≤ a).


(** The cell of a mask and of a row at position [k]. *)
Definition mask_at (mask : list bool) (k : nat) : bool := default false (mask !! k).
Definition val_at (a : list fval) (k : nat) : fval := default NaN (a !! k).

(** Two rows agree at the true positions of a mask; two weight matrices
    agree at every mask-true position. *)
Definition agree_at (mask : list bool) (row1 row2 : list fval) : Prop :=
  ∀ k, mask !! k = Some true → row1 !! k = row2 !! k.

Definition agree_on_mask (nonzero : list (list bool))
    (data1 data2 : list (list fval)) : Prop :=
  ∀ i mask row1 row2,
    nonzero !! i = Some mask → data1 !! i = Some row1 → data2 !! i = Some row2 →
    agree_at mask row1 row2.

(** The slot of the node [j] in a vector aligned with the true positions
    of [nbrs]: the number of neighbours before it. *)
Definition slot_of (nbrs : list bool) (j : nat) : nat := count_true (take j nbrs).




(** [a[mask] *= alpha] for an [alpha] that has one entry per position of
    [a], read at the true positions of the mask. *)
Definition scatter_pointwise (mask : list bool) (a al : list fval) : list fval :=
  zip_with (λ (b : bool) xc, if b then fmul xc.1 xc.2 else xc.1) mask (zip a al).

(** ** The operations as the specification words them *)

(** Average neighbour weight: the weights at the mask-true columns only,
    over their count. *)
Definition masked_average (row : list fval) (mask : list bool) : fval :=
  fdiv (fsum (mask_select mask row)) (of_nat (count_true mask)).

(** Classic policy, position by position: the entry at [prev] is divided by
    [p]; an entry at a neighbour of the current node that is not a
    neighbour of [prev] is divided by [q]; the others are kept. *)
Definition classic_bias (nbrs_cur nbrs_prev : list bool) (p q : fval)
    (prev k : nat) (x : fval) : fval :=
  if decide (k = prev) then fdiv x p
  else if mask_at nbrs_cur k && negb (mask_at nbrs_prev k) then fdiv x q
  else x.


(** Extended policy, position by position.  [threshold k] is the average
    weight against which the weight from [prev] to [k] is compared and by
    which it is divided.  An in-out candidate is a neighbour of the current
    node, other than [prev], whose weight from [prev] is below the
    threshold. *)
Definition in_out_candidate (threshold : nat → fval) (nbrs_cur : list bool)
    (prev_w : list fval) (prev k : nat) : bool :=
  negb (bool_decide (k = prev)) && mask_at nbrs_cur k
  && fltb (val_at prev_w k) (threshold k).

(** The ratio [t_k]. *)
Definition in_out_ratio (threshold : nat → fval) (prev_w : list fval) (k : nat) : fval :=
  fdiv (val_at prev_w k) (threshold k).

(** The bias [alpha_k] of a candidate whose weight from the current node
    is [x]: [min(1, 1/q)] when [x] is below the average weight of the
    current node, [1/q + (1 - 1/q) * t_k] otherwise. *)
Definition out_bias (threshold : nat → fval) (prev_w : list fval)
    (avg_cur q : fval) (k : nat) (x : fval) : fval :=
  if fltb x avg_cur then fmin fone (fdiv fone q)
  else fadd (fdiv fone q)
            (fmul (fsub fone (fdiv fone q)) (in_out_ratio threshold prev_w k)).

(** A candidate is multiplied by its bias, the entry at [prev] is divided
    by [p], the others are kept. *)
Definition extended_bias (threshold : nat → fval) (nbrs_cur : list bool)
    (prev_w : list fval) (avg_cur p q : fval) (prev k : nat) (x : fval) : fval :=
  if in_out_candidate threshold nbrs_cur prev_w prev k
  then fmul x (out_bias threshold prev_w avg_cur q k x)
  else if decide (k = prev) then fdiv x p
  else x.

Definition extended_policy (threshold : nat → fval) (row : list fval)
    (nbrs_cur : list bool) (prev_w : list fval) (avg_cur p q : fval)
    (prev : nat) : list fval :=
  normalize (mask_select nbrs_cur
    (imap (extended_bias threshold nbrs_cur prev_w avg_cur p q prev) row)).

(** The threshold of the source: the average weight of the candidate [k]. *)
Definition candidate_average (average_weight_ary : list fval) : nat → fval :=
  val_at average_weight_ary.

(** The threshold of the specification: the average weight of the previous
    node, whatever the candidate. *)
Definition previous_average (average_weight_ary : list fval) (prev : nat)
    : nat → fval :=
  λ _, val_at average_weight_ary prev.

(** ** Concrete graphs and values *)

(** Rationals as floats. *)
Definition fq (n : Z) (d : positive) : fval := Fin (Q2Qc (n # d)).

(** Decidable equality of values, to close concrete computations. *)
Definition fval_eqb (x y : fval) : bool :=
  match x, y with
  | Fin a, Fin b => Qeq_bool a b
  | PInf, PInf | NInf, NInf | NaN, NaN => true
  | _, _ => false
  end.

Fixpoint list_eqb (l k : list fval) : bool :=
  match l, k with
  | [], [] => true
  | x :: l, y :: k => fval_eqb x y && list_eqb l k
  | _, _ => false
  end.

Definition result_eqb (r s : option (list fval)) : bool :=
  match r, s with
  | Some l, Some k => list_eqb l k
  | None, None => true
  | _, _ => false
  end.

(** The triangle on nodes 0, 1, 2 with all weights 1. *)
Definition triangle_data : list (list fval) :=
  [[fzero; fone; fone]; [fone; fzero; fone]; [fone; fone; fzero]].
Definition triangle_nonzero : list (list bool) :=
  [[false; true; true]; [true; false; true]; [true; true; false]].

(** The triangle with weights 1 (0-1), 2 (0-2) and 4 (1-2). *)
Definition weighted_data : list (list fval) :=
  [[fzero; fone; fq 2 1]; [fone; fzero; fq 4 1]; [fq 2 1; fq 4 1; fzero]].

(** The path 0 - 1 - 2 with unit weights, and the same matrix with a
    stored weight at the absent edge from 0 to 2. *)
Definition path_nonzero : list (list bool) :=
  [[false; true; false]; [true; false; true]; [false; true; false]].
Definition path_data : list (list fval) :=
  [[fzero; fone; fzero]; [fone; fzero; fone]; [fzero; fone; fzero]].
Definition path_data_stray : list (list fval) :=
  [[fzero; fone; fq 5 1]; [fone; fzero; fone]; [fzero; fone; fzero]].


(** A two-node graph that stores a weight on the diagonal of row 0 while
    the mask has no edge there. *)
Definition stray_data : list (list fval) :=
  [[fq 3 1; fone]; [fone; fzero]].
Definition stray_nonzero : list (list bool) :=
  [[false; true]; [true; false]].

(** Two nodes: node 0 has no neighbour, node 1 has a single edge, to
    itself, of weight zero. *)
Definition isolated_data : list (list fval) :=
  [[fzero; fzero]; [fzero; fzero]].
Definition isolated_nonzero : list (list bool) :=
  [[false; false]; [false; true]].

(** ** Further vocabulary *)




(** ** Basic facts *)

Lemma fval_eqb_eq x y : fval_eqb x y = true → x = y.
Proof.
  destruct x, y; simpl; try done.
  intros H. f_equal. apply Qc_is_canon. by apply Qeq_bool_eq.
Qed.

Lemma list_eqb_eq l k : list_eqb l k = true → l = k.
Proof.
  revert k. induction l as [|x l IH]; intros [|y k]; simpl; try done.
  intros [Hx Hl]%andb_true_iff. f_equal; [by apply fval_eqb_eq | by apply IH].
Qed.

Lemma result_eqb_eq r s : result_eqb r s = true → r = s.
Proof.
  destruct r, s; simpl; try done. intros H. f_equal. by apply list_eqb_eq.
Qed.

Lemma fval_eqb_refl x : fval_eqb x x = true.
Proof. destruct x; simpl; try done. apply Qeq_bool_iff. reflexivity. Qed.

Lemma fval_eqb_neq x y : fval_eqb x y = false → x ≠ y.
Proof. intros H ->. by rewrite fval_eqb_refl in H. Qed.

Lemma list_eqb_refl l : list_eqb l l = true.
Proof. induction l as [|x l IH]; simpl; [done|]. by rewrite fval_eqb_refl. Qed.

Lemma result_eqb_neq r s : result_eqb r s = false → r ≠ s.
Proof.
  intros H ->. destruct s as [l|]; simpl in H; [|done].
  by rewrite list_eqb_refl in H.
Qed.

Ltac by_computation := apply result_eqb_eq; vm_compute; reflexivity.

Example triangle_average :
  get_average_weights triangle_data triangle_nonzero = [fq 2 2; fq 2 2; fq 2 2].
Proof. apply list_eqb_eq. vm_compute. reflexivity. Qed.

Example triangle_classic :
  get_normalized_probs triangle_data triangle_nonzero (fq 1 2) fone 1 (Some 0%nat) []
  = Some [fq 2 3; fq 1 3].
Proof. by_computation. Qed.

Example triangle_extended :
  get_extended_normalized_probs triangle_data triangle_nonzero (fq 1 2) fone 1 (Some 0%nat)
    (get_average_weights triangle_data triangle_nonzero)
  = Some [fq 2 3; fq 1 3].
Proof. by_computation. Qed.

(** ** Sums *)

Lemma fadd_0_l x : fadd fzero x = x.
Proof. destruct x; simpl; try done. by rewrite Qcplus_0_l. Qed.

Lemma fadd_0_r x : fadd x fzero = x.
Proof. destruct x; simpl; try done. by rewrite Qcplus_0_r. Qed.

Lemma fadd_assoc x y z : fadd (fadd x y) z = fadd x (fadd y z).
Proof. destruct x, y, z; simpl; try done. by rewrite Qcplus_assoc. Qed.


Lemma foldl_fadd a l : foldl fadd a l = fadd a (fsum l).
Proof.
  unfold fsum. revert a. induction l as [|x l IH]; intros a; cbn [foldl].
  - by rewrite fadd_0_r.
  - rewrite (IH (fadd a x)), (IH (fadd fzero x)), fadd_0_l. apply fadd_assoc.
Qed.


Lemma fsum_cons x l : fsum (x :: l) = fadd x (fsum l).
Proof. unfold fsum at 1. cbn [foldl]. by rewrite foldl_fadd, fadd_0_l. Qed.

(** Entries that are zero wherever the mask is false do not count. *)
Lemma fsum_mask_select_zero (mask : list bool) (row : list fval) :
  length row = length mask →
  (∀ j x, row !! j = Some x → mask !! j = Some false → x = fzero) →
  fsum row = fsum (mask_select mask row).
Proof.
  revert row. induction mask as [|b mask IH]; intros [|x row] Hlen Hz; simpl in *; try done.
  assert (fsum row = fsum (mask_select mask row)) as IH'.
  { apply IH; [lia|]. intros j y Hy Hm. by apply (Hz (S j)). }
  destruct b.
  - by rewrite !fsum_cons, IH'.
  - rewrite fsum_cons, IH', (Hz 0%nat x); [apply fadd_0_l|done..].
Qed.

Lemma fdiv_zero_not_fin x : is_fin (fdiv x fzero) = false.
Proof.
  unfold fdiv, fzero.
  destruct x as [a| | |]; try done; case_decide; try done.
  simpl. by destruct (0 ?= a).
Qed.

Lemma get_average_weights_lookup data nonzero i row mask :
  data !! i = Some row → nonzero !! i = Some mask →
  get_average_weights data nonzero !! i
  = Some (fdiv (fsum row) (of_nat (count_true mask))).
Proof.
  intros Hd Hm. unfold get_average_weights.
  by rewrite lookup_zip_with, !list_lookup_fmap, Hd, Hm.
Qed.

(** ** Average weights *)

(** C8, as stated, fails: with a stored weight at a mask-false column the
    value returned for the row is not the masked sum over the count. *)
Lemma average_weights_not_masked :
  get_average_weights stray_data stray_nonzero !! 0%nat = Some (fq 4 1) ∧
  masked_average [fq 3 1; fone] [false; true] = fone ∧
  get_average_weights stray_data stray_nonzero !! 0%nat
  ≠ Some (masked_average [fq 3 1; fone] [false; true]).
Proof.
  assert (get_average_weights stray_data stray_nonzero !! 0%nat = Some (fq 4 1)) as H1.
  { rewrite (get_average_weights_lookup _ _ 0 [fq 3 1; fone] [false; true]) by done.
    apply (f_equal Some), fval_eqb_eq. vm_compute. reflexivity. }
  assert (masked_average [fq 3 1; fone] [false; true] = fone) as H2.
  { apply fval_eqb_eq. vm_compute. reflexivity. }
  repeat split; [done..|]. rewrite H1, H2.
  intros H. apply (fval_eqb_neq (fq 4 1) fone); [by vm_compute | congruence].
Qed.

(** C8 (amended): position [i] of [get_average_weights] is the sum of the
    whole row [i] of the weights divided by the number of mask-true
    columns; it is the sum over the mask-true columns divided by their
    number when the weights at the mask-false columns are zero; and when
    the count is zero the value is returned all the same, and is not
    finite. *)
Theorem average_weights_row_sum (data : list (list fval)) (nonzero : list (list bool))
    (i : nat) (row : list fval) (mask : list bool) :
  data !! i = Some row → nonzero !! i = Some mask → length row = length mask →
  get_average_weights data nonzero !! i
    = Some (fdiv (fsum row) (of_nat (count_true mask))) ∧
  ((∀ j x, row !! j = Some x → mask !! j = Some false → x = fzero) →
     get_average_weights data nonzero !! i = Some (masked_average row mask)) ∧
  (count_true mask = 0%nat →
     ∃ x, get_average_weights data nonzero !! i = Some x ∧ is_fin x = false).
Proof.
  intros Hd Hm Hlen.
  pose proof (get_average_weights_lookup _ _ _ _ _ Hd Hm) as Hav.
  split; [done|]. split.
  - intros Hz. rewrite Hav. unfold masked_average.
    by rewrite (fsum_mask_select_zero mask row).
  - intros H0. eexists. split; [done|]. rewrite H0. apply fdiv_zero_not_fin.
Qed.

Lemma average_weights_row_sum_witness :
  get_average_weights triangle_data triangle_nonzero !! 1%nat
    = Some (fdiv (fsum [fone; fzero; fone]) (of_nat (count_true [true; false; true]))) ∧
  ((∀ j x, [fone; fzero; fone] !! j = Some x →
           [true; false; true] !! j = Some false → x = fzero) →
     get_average_weights triangle_data triangle_nonzero !! 1%nat
     = Some (masked_average [fone; fzero; fone] [true; false; true])) ∧
  (count_true [true; false; true] = 0%nat →
     ∃ x, get_average_weights triangle_data triangle_nonzero !! 1%nat = Some x
          ∧ is_fin x = false).
Proof.
  apply (average_weights_row_sum triangle_data triangle_nonzero 1
           [fone; fzero; fone] [true; false; true]); reflexivity.
Defined.

(** ** Arrays and masks *)

(** From here on the arithmetic is used through its lemmas only. *)
Arguments fadd : simpl never.
Arguments fsub : simpl never.
Arguments fmul : simpl never.
Arguments fdiv : simpl never.
Arguments fmin : simpl never.
Arguments fltb : simpl never.
Arguments sdiv : simpl never.
Arguments fsum : simpl never.
Arguments count_true : simpl never.

Lemma count_true_cons b mask :
  count_true (b :: mask) = if b then S (count_true mask) else count_true mask.
Proof. unfold count_true. by destruct b. Qed.

Lemma mask_select_length {A} (mask : list bool) (a : list A) :
  length a = length mask → length (mask_select mask a) = count_true mask.
Proof.
  revert a. induction mask as [|b mask IH]; intros [|x a] Hlen; simpl in *; try done.
  rewrite count_true_cons. destruct b; simpl; rewrite IH; auto with lia.
Qed.

Lemma mask_update_lookup {A} (mask : list bool) (f : A → A) (a : list A) k :
  mask_update mask f a !! k
  = b ← mask !! k; x ← a !! k; Some (if b : bool then f x else x).
Proof. unfold mask_update. apply lookup_zip_with. Qed.

Ltac len :=
  unfold mask_update in *;
  repeat match goal with
  | H : context [length (<[_:=_]> _)] |- _ => rewrite length_insert in H
  | H : context [length (zip_with _ _ _)] |- _ => rewrite length_zip_with in H
  | H : context [length (map _ _)] |- _ => rewrite length_map in H
  | |- context [length (<[_:=_]> _)] => rewrite length_insert
  | |- context [length (zip_with _ _ _)] => rewrite length_zip_with
  | |- context [length (map _ _)] => rewrite length_map
  end;
  lia.

Lemma set_item_Some {A} (a : list A) i x :
  (i < length a)%nat → set_item a i x = Some (<[i:=x]> a).
Proof. intros H. unfold set_item. by rewrite decide_True. Qed.

Lemma sdiv_Some x p : p ≠ fzero → sdiv x p = Some (fdiv x p).
Proof. intros H. unfold sdiv. destruct p; try done. by case_decide; subst. Qed.

Lemma sdiv_zero x : sdiv x fzero = None.
Proof. unfold sdiv, fzero. by case_decide. Qed.

Lemma mask_at_lookup mask k b : mask !! k = Some b → mask_at mask k = b.
Proof. unfold mask_at. by intros ->. Qed.

Lemma val_at_lookup a k x : a !! k = Some x → val_at a k = x.
Proof. unfold val_at. by intros ->. Qed.

Lemma wf_graph_rows n data nonzero avg i row mask :
  wf_graph n data nonzero avg →
  data !! i = Some row → nonzero !! i = Some mask →
  length row = n ∧ length mask = n ∧ (i < n)%nat.
Proof.
  intros (Hd & Hn & _ & Hrows & Hmasks) Hrow Hmask.
  rewrite Forall_lookup in Hrows. rewrite Forall_lookup in Hmasks.
  split; [by eapply Hrows|]. split; [by eapply Hmasks|].
  apply lookup_lt_Some in Hrow. lia.
Qed.

(** ** The classic policy, position by position *)

Lemma classic_unnormalized_first_order data nonzero p q cur row nbrs :
  data !! cur = Some row → nonzero !! cur = Some nbrs →
  classic_unnormalized data nonzero p q cur None = Some (mask_select nbrs row).
Proof. intros Hd Hn. unfold classic_unnormalized. by rewrite Hd, Hn. Qed.

Lemma classic_biased_pointwise n (nbrs nbrs_prev : list bool) (row : list fval) p q prev x :
  length nbrs = n → length nbrs_prev = n → length row = n →
  row !! prev = Some x →
  <[prev := fdiv x p]>
    (mask_update (<[prev:=false]> (zip_with andb nbrs (map negb nbrs_prev)))
                 (λ x, fdiv x q) row)
  = imap (classic_bias nbrs nbrs_prev p q prev) row.
Proof.
  intros Hn Hp Hr Hx. apply list_eq. intros k.
  rewrite list_lookup_imap. unfold classic_bias.
  destruct (decide (k = prev)) as [->|Hne].
  - rewrite list_lookup_insert_eq, Hx; [done|].
    apply lookup_lt_Some in Hx. len.
  - rewrite list_lookup_insert_ne by done.
    rewrite mask_update_lookup, list_lookup_insert_ne by done.
    rewrite lookup_zip_with, list_lookup_fmap. unfold mask_at.
    destruct (row !! k) as [y|] eqn:Hy; simpl.
    + apply lookup_lt_Some in Hy.
      destruct (lookup_lt_is_Some_2 nbrs k) as [b Hb]; [lia|].
      destruct (lookup_lt_is_Some_2 nbrs_prev k) as [c Hc]; [lia|].
      by rewrite Hb, Hc.
    + by destruct (nbrs !! k), (nbrs_prev !! k).
Qed.

Lemma classic_unnormalized_second_order n data nonzero avg p q cur prev
    row nbrs nbrs_prev :
  wf_graph n data nonzero avg →
  data !! cur = Some row → nonzero !! cur = Some nbrs →
  nonzero !! prev = Some nbrs_prev → p ≠ fzero →
  classic_unnormalized data nonzero p q cur (Some prev)
  = Some (mask_select nbrs (imap (classic_bias nbrs nbrs_prev p q prev) row)).
Proof.
  intros Hwf Hd Hn Hp Hp0.
  destruct (wf_graph_rows _ _ _ _ _ _ _ Hwf Hd Hn) as (Hlr & Hln & Hcur).
  assert (length nbrs_prev = n ∧ (prev < n)%nat) as [Hlp Hprev].
  { destruct Hwf as (_ & Hnz & _ & _ & Hmasks).
    rewrite Forall_lookup in Hmasks. split; [by eapply Hmasks|].
    apply lookup_lt_Some in Hp. lia. }
  destruct (lookup_lt_is_Some_2 row prev) as [x Hx]; [lia|].
  unfold classic_unnormalized. rewrite Hn, Hd. simpl. rewrite Hp. simpl.
  rewrite set_item_Some by len. simpl.
  assert (mask_update (<[prev:=false]> (zip_with andb nbrs (map negb nbrs_prev)))
            (λ x, fdiv x q) row !! prev = Some x) as ->.
  { rewrite mask_update_lookup, list_lookup_insert_eq, Hx; [done|len]. }
  simpl. rewrite sdiv_Some by done. simpl.
  rewrite set_item_Some by len.
  simpl. by erewrite classic_biased_pointwise.
Qed.



(** ** Packed vectors *)


Lemma mask_select_map {A B} (g : A → B) (mask : list bool) (a : list A) :
  map g (mask_select mask a) = mask_select mask (map g a).
Proof.
  revert a. induction mask as [|b mask IH]; intros [|x a]; simpl; try done.
  destruct b; simpl; by rewrite IH.
Qed.

Lemma mask_select_zip_with {A B C} (f : A → B → C) (mask : list bool)
    (a : list A) (b : list B) :
  zip_with f (mask_select mask a) (mask_select mask b)
  = mask_select mask (zip_with f a b).
Proof.
  revert a b. induction mask as [|m mask IH]; intros [|x a] [|y b]; simpl; try done.
  - by destruct (if m then _ else _).
  - destruct m; simpl; by rewrite IH.
Qed.

Lemma mask_select_mask_update {A} (mask cond : list bool) (f : A → A) (a : list A) :
  mask_update (mask_select mask cond) f (mask_select mask a)
  = mask_select mask (mask_update cond f a).
Proof. unfold mask_update. apply mask_select_zip_with. Qed.

Lemma mask_scatter_mul_select (mask : list bool) (a al : list fval) :
  length a = length mask → length al = length mask →
  mask_scatter_mul mask a (mask_select mask al) = scatter_pointwise mask a al.
Proof.
  unfold scatter_pointwise.
  revert a al. induction mask as [|b mask IH]; intros [|x a] [|c al] Ha Hal;
    simpl in *; try done.
  destruct b; simpl; rewrite IH; auto with lia.
Qed.

Lemma scatter_pointwise_lookup mask a al k :
  scatter_pointwise mask a al !! k
  = b ← mask !! k; x ← a !! k; c ← al !! k;
    Some (if b : bool then fmul x c else x).
Proof.
  unfold scatter_pointwise. rewrite lookup_zip_with, lookup_zip_with.
  destruct (mask !! k), (a !! k), (al !! k); done.
Qed.

Lemma scatter_pointwise_length mask a al :
  length (scatter_pointwise mask a al)
  = (length mask `min` (length a `min` length al))%nat.
Proof. unfold scatter_pointwise. by rewrite length_zip_with, length_zip_with. Qed.

(** ** The extended policy, position by position *)

Lemma extended_unnormalized_first_order data nonzero p q cur avg row nbrs :
  data !! cur = Some row → nonzero !! cur = Some nbrs →
  extended_unnormalized data nonzero p q cur None avg = Some (mask_select nbrs row).
Proof. intros Hd Hn. unfold extended_unnormalized. by rewrite Hd, Hn. Qed.

(** The vector [alpha] of the source is the packing of a vector that has
    one bias per position. *)
Lemma alpha_packed (inout : list bool) (row prev_w avg : list fval) avg_cur inv_q :
  mask_update (map (λ x, fltb x avg_cur) (mask_select inout row))
    (λ _, fmin fone inv_q)
    (map (λ t, fadd inv_q (fmul (fsub fone inv_q) t))
       (zip_with fdiv (mask_select inout prev_w) (mask_select inout avg)))
  = mask_select inout
      (mask_update (map (λ x, fltb x avg_cur) row) (λ _, fmin fone inv_q)
         (map (λ t, fadd inv_q (fmul (fsub fone inv_q) t))
            (zip_with fdiv prev_w avg))).
Proof.
  by rewrite mask_select_zip_with, !mask_select_map, mask_select_mask_update.
Qed.

Lemma extended_biased_pointwise n (nbrs : list bool) (row prev_w avg : list fval)
    avg_cur p q prev x :
  length nbrs = n → length row = n → length prev_w = n → length avg = n →
  row !! prev = Some x →
  <[prev := fdiv x p]>
    (scatter_pointwise
       (<[prev:=false]> (zip_with andb nbrs (zip_with fltb prev_w avg)))
       row
       (mask_update (map (λ x, fltb x avg_cur) row) (λ _, fmin fone (fdiv fone q))
          (map (λ t, fadd (fdiv fone q) (fmul (fsub fone (fdiv fone q)) t))
             (zip_with fdiv prev_w avg))))
  = imap (extended_bias (candidate_average avg) nbrs prev_w avg_cur p q prev) row.
Proof.
  intros Hn Hr Hw Ha Hx. apply list_eq. intros k.
  rewrite list_lookup_imap.
  unfold extended_bias, in_out_candidate, out_bias, in_out_ratio, candidate_average.
  assert (prev < n)%nat as Hprev by (apply lookup_lt_Some in Hx; lia).
  destruct (decide (k = prev)) as [->|Hne].
  - rewrite bool_decide_eq_true_2 by done. simpl.
    rewrite list_lookup_insert_eq, Hx; [done|].
    rewrite scatter_pointwise_length. len.
  - rewrite bool_decide_eq_false_2 by done. simpl.
    rewrite list_lookup_insert_ne by done.
    rewrite scatter_pointwise_lookup, list_lookup_insert_ne by done.
    rewrite mask_update_lookup, !lookup_zip_with, !list_lookup_fmap, lookup_zip_with.
    unfold mask_at, val_at.
    destruct (row !! k) as [y|] eqn:Hy; simpl.
    + apply lookup_lt_Some in Hy.
      destruct (lookup_lt_is_Some_2 nbrs k) as [b Hb]; [lia|].
      destruct (lookup_lt_is_Some_2 prev_w k) as [w Hwk]; [lia|].
      destruct (lookup_lt_is_Some_2 avg k) as [v Hv]; [lia|].
      rewrite Hb, Hwk, Hv. simpl.
      by destruct (b && fltb w v), (fltb y avg_cur).
    + by destruct (nbrs !! k), (prev_w !! k), (avg !! k).
Qed.

Lemma extended_unnormalized_second_order n data nonzero avg p q cur prev
    row nbrs prev_w :
  wf_graph n data nonzero avg →
  data !! cur = Some row → nonzero !! cur = Some nbrs →
  data !! prev = Some prev_w → p ≠ fzero → q ≠ fzero →
  extended_unnormalized data nonzero p q cur (Some prev) avg
  = Some (mask_select nbrs
      (imap (extended_bias (candidate_average avg) nbrs prev_w
               (val_at avg cur) p q prev) row)).
Proof.
  intros Hwf Hd Hn Hp Hp0 Hq0.
  destruct (wf_graph_rows _ _ _ _ _ _ _ Hwf Hd Hn) as (Hlr & Hln & Hcur).
  assert (length prev_w = n ∧ (prev < n)%nat ∧ length avg = n) as (Hlp & Hprev & Hla).
  { destruct Hwf as (Hdl & _ & Hal & Hrows & _).
    rewrite Forall_lookup in Hrows. split; [by eapply Hrows|].
    apply lookup_lt_Some in Hp. split; [lia|done]. }
  destruct (lookup_lt_is_Some_2 row prev) as [x Hx]; [lia|].
  destruct (lookup_lt_is_Some_2 avg cur) as [ac Hac]; [lia|].
  unfold extended_unnormalized. rewrite Hn, Hd. simpl. rewrite Hp. simpl.
  rewrite set_item_Some by len. simpl.
  rewrite sdiv_Some by done. simpl. rewrite Hac. simpl.
  rewrite alpha_packed, mask_scatter_mul_select by len.
  rewrite scatter_pointwise_lookup, list_lookup_insert_eq, Hx by len.
  simpl.
  destruct (mask_update _ _ _ !! prev) as [c|] eqn:Hc; simpl.
  - rewrite sdiv_Some by done. simpl. rewrite set_item_Some.
    + simpl. erewrite extended_biased_pointwise by done.
      by rewrite (val_at_lookup _ _ _ Hac).
    + rewrite scatter_pointwise_length. len.
  - apply lookup_ge_None in Hc. len.
Qed.

(** ** Rational arithmetic *)

Lemma Qc_pos_ne0 (b : Qc) : 0 < b → b ≠ 0.
Proof. intros H ->. by apply (Qclt_not_eq 0 0). Qed.

Lemma Q_inv_facts (b : Q) : (0 < b)%Q → (0 < / b)%Q ∧ (b * / b == 1)%Q.
Proof.
  intros H. split; [by apply Qinv_lt_0_compat|].
  apply Qmult_inv_r. intros E. rewrite E in H. by apply (Qlt_irrefl 0).
Qed.

(** A goal on [Qc] as a goal on [Q]. *)
Ltac qc2q :=
  unfold Qcle, Qclt, Qcdiv, Qcminus in *; simpl in *;
  rewrite ?Qred_correct in *.

(** The inverses of the positive numbers of the context become variables
    that come with their sign and their defining equation. *)
Ltac inv_atoms :=
  repeat match goal with
  | H : (0 < ?b)%Q |- _ =>
      match goal with
      | |- context [(/ b)%Q] => idtac
      | _ : context [(/ b)%Q] |- _ => idtac
      end;
      let ib := fresh "ib" in
      let Hp := fresh "Hp" in let He := fresh "He" in
      destruct (Q_inv_facts b H) as [Hp He];
      set (ib := (/ b)%Q) in *; clearbody ib
  end.

Lemma Qcdiv_pos (a b : Qc) : 0 < a → 0 < b → 0 < a / b.
Proof. intros Ha Hb. qc2q. inv_atoms. nra. Qed.


Lemma Qcdiv_range (a b : Qc) : 0 ≤ a → a < b → 0 ≤ a / b ∧ a / b < 1.
Proof.
  intros Ha Hab. assert (0 < b) as Hb by (by eapply Qcle_lt_trans).
  qc2q. inv_atoms. split; nra.
Qed.



(** ** Values with a sign *)

Lemma fltb_fin_inv a v :
  fltb (Fin a) v = true → v = PInf ∨ ∃ b, v = Fin b ∧ a < b.
Proof.
  unfold fltb. destruct v as [b| | |]; try done; [|by left].
  intros H%bool_decide_eq_true. right. by exists b.
Qed.

Lemma fdiv_fin a b : b ≠ 0 → fdiv (Fin a) (Fin b) = Fin (a / b).
Proof. intros H. unfold fdiv. by rewrite decide_False. Qed.

(** The ratio of a non-negative weight to a threshold above it. *)
Lemma ratio_range a v :
  0 ≤ a → fltb (Fin a) v = true → ∃ t, fdiv (Fin a) v = Fin t ∧ 0 ≤ t ∧ t < 1.
Proof.
  intros Ha [->|(b & -> & Hab)]%fltb_fin_inv.
  - exists 0. by split.
  - exists (a / b). split; [|by apply Qcdiv_range].
    apply fdiv_fin, Qc_pos_ne0. by eapply Qcle_lt_trans.
Qed.

(** C1, as stated, fails: on the weighted triangle, from node 0 to node 1,
    node 2 is an in-out candidate (2 is below the average weight 3 of
    node 2) although 2 is not below the average weight 3/2 of the
    previous node. *)
Lemma extended_threshold_not_previous :
  in_out_candidate
    (candidate_average (get_average_weights weighted_data triangle_nonzero))
    [true; false; true] [fzero; fone; fq 2 1] 0 2 = true ∧
  in_out_candidate
    (previous_average (get_average_weights weighted_data triangle_nonzero) 0)
    [true; false; true] [fzero; fone; fq 2 1] 0 2 = false ∧
  get_extended_normalized_probs weighted_data triangle_nonzero fone (fq 2 1) 1
    (Some 0%nat) (get_average_weights weighted_data triangle_nonzero)
  = Some [fq 3 13; fq 10 13] ∧
  get_extended_normalized_probs weighted_data triangle_nonzero fone (fq 2 1) 1
    (Some 0%nat) (get_average_weights weighted_data triangle_nonzero)
  ≠ Some (extended_policy
      (previous_average (get_average_weights weighted_data triangle_nonzero) 0)
      [fone; fzero; fq 4 1] [true; false; true] [fzero; fone; fq 2 1]
      (fq 5 2) fone (fq 2 1) 0).
Proof.
  split; [by vm_compute|]. split; [by vm_compute|].
  split; [by_computation|]. apply result_eqb_neq. by vm_compute.
Qed.

(** C1 (amended): with a previous node, [get_extended_normalized_probs] is
    the normalised restriction to the neighbours of the current node of
    the row in which every in-out candidate [k] (a neighbour of the
    current node other than the previous node whose weight from the
    previous node is below the average weight of [k] itself) is multiplied
    by [alpha_k], where [alpha_k] is [min(1, 1/q)] if the weight of [k]
    from the current node is below the average weight of the current node
    and [1/q + (1 - 1/q) * t_k] otherwise, with [t_k] the weight from the
    previous node divided by the average weight of [k], and the entry at
    the previous node is divided by [p].  For a non-negative weight from
    the previous node, [t_k] lies in [0,1). *)
Theorem extended_policy_pointwise n data nonzero avg p q cur prev row nbrs prev_w :
  wf_graph n data nonzero avg →
  data !! cur = Some row → nonzero !! cur = Some nbrs →
  data !! prev = Some prev_w → p ≠ fzero → q ≠ fzero →
  get_extended_normalized_probs data nonzero p q cur (Some prev) avg
    = Some (extended_policy (candidate_average avg) row nbrs prev_w
              (val_at avg cur) p q prev) ∧
  ∀ k, in_out_candidate (candidate_average avg) nbrs prev_w prev k = true →
       fnonneg (val_at prev_w k) →
       ∃ t, in_out_ratio (candidate_average avg) prev_w k = Fin t ∧ 0 ≤ t ∧ t < 1.
Proof.
  intros Hwf Hd Hn Hp Hp0 Hq0. split.
  - unfold get_extended_normalized_probs, extended_policy.
    by erewrite extended_unnormalized_second_order.
  - intros k Hk Hw. unfold in_out_candidate in Hk. unfold in_out_ratio.
    apply andb_true_iff in Hk as [_ Hk].
    destruct (val_at prev_w k) as [a| | |]; try done.
    by apply ratio_range.
Qed.

Lemma weighted_wf :
  wf_graph 3 weighted_data triangle_nonzero
    (get_average_weights weighted_data triangle_nonzero).
Proof.
  unfold wf_graph, weighted_data, triangle_nonzero. repeat split; repeat constructor.
Qed.

Lemma extended_policy_pointwise_witness :
  get_extended_normalized_probs weighted_data triangle_nonzero fone (fq 2 1) 1
    (Some 0%nat) (get_average_weights weighted_data triangle_nonzero)
    = Some (extended_policy
              (candidate_average (get_average_weights weighted_data triangle_nonzero))
              [fone; fzero; fq 4 1] [true; false; true] [fzero; fone; fq 2 1]
              (val_at (get_average_weights weighted_data triangle_nonzero) 1)
              fone (fq 2 1) 0) ∧
  ∀ k, in_out_candidate
         (candidate_average (get_average_weights weighted_data triangle_nonzero))
         [true; false; true] [fzero; fone; fq 2 1] 0 k = true →
       fnonneg (val_at [fzero; fone; fq 2 1] k) →
       ∃ t, in_out_ratio
              (candidate_average (get_average_weights weighted_data triangle_nonzero))
              [fzero; fone; fq 2 1] k = Fin t ∧ 0 ≤ t ∧ t < 1.
Proof.
  apply (extended_policy_pointwise 3 weighted_data triangle_nonzero
           (get_average_weights weighted_data triangle_nonzero) fone (fq 2 1) 1 0
           [fone; fzero; fq 4 1] [true; false; true] [fzero; fone; fq 2 1]);
    try reflexivity; try discriminate.
  exact weighted_wf.
Defined.

(** ** More on masks *)

Lemma mask_select_Forall {A} (P : A → Prop) (mask : list bool) (a : list A) :
  Forall P (mask_select mask a)
  ↔ ∀ k x, mask !! k = Some true → a !! k = Some x → P x.
Proof.
  revert a. induction mask as [|b mask IH]; intros [|x a]; simpl.
  1-3: split; [intros _ k y; by rewrite ?lookup_nil | constructor].
  destruct b; simpl.
  - split.
    + intros [Hx H]%Forall_cons_1 [|k] y Hm Ha; [by simplify_eq/=|]. by eapply IH.
    + intros H. apply Forall_cons_2; [by apply (H 0%nat)|].
      apply IH. intros k y. apply (H (S k)).
  - split.
    + intros H [|k] y Hm Ha; [done|]. by eapply IH.
    + intros H. apply IH. intros k y. apply (H (S k)).
Qed.

Lemma mask_select_ext {A} (mask : list bool) (a b : list A) :
  length a = length b →
  (∀ k, mask !! k = Some true → a !! k = b !! k) →
  mask_select mask a = mask_select mask b.
Proof.
  revert a b. induction mask as [|m mask IH]; intros [|x a] [|y b] Hlen H;
    simpl in *; try done.
  assert (mask_select mask a = mask_select mask b) as ->.
  { apply IH; [lia|]. intros k. apply (H (S k)). }
  destruct m; [|done]. f_equal. specialize (H 0%nat eq_refl). by simplify_eq/=.
Qed.



(** ** Lists of finite values *)









Lemma normalize_length u : length (normalize u) = length u.
Proof. unfold normalize. apply length_map. Qed.



(** ** Positive weights stay positive under the biases *)


Lemma fdiv_fpos x y : fpos x → fpos y → fpos (fdiv x y).
Proof.
  destruct x as [a| | |], y as [b| | |]; try done. simpl. intros Ha Hb.
  rewrite fdiv_fin by (by apply Qc_pos_ne0). simpl. by apply Qcdiv_pos.
Qed.

Lemma fmul_fpos x y : fpos x → fpos y → fpos (fmul x y).
Proof.
  destruct x as [a| | |], y as [b| | |]; try done. simpl. intros Ha Hb.
  unfold fmul. simpl. qc2q. nra.
Qed.

Lemma fmin_fpos x y : fpos x → fpos y → fpos (fmin x y).
Proof.
  destruct x as [a| | |], y as [b| | |]; try done. intros Ha Hb.
  unfold fmin. by destruct (fltb _ _).
Qed.

(** The smooth bias of a ratio in [0,1). *)
Lemma smooth_bias_fpos q t :
  fpos q → 0 ≤ t → t < 1 →
  fpos (fadd (fdiv fone q) (fmul (fsub fone (fdiv fone q)) (Fin t))).
Proof.
  destruct q as [b| | |]; try done. simpl. intros Hb Ht Ht1. unfold fone.
  rewrite fdiv_fin by (by apply Qc_pos_ne0).
  unfold fsub, fneg, fadd, fmul. simpl. qc2q. inv_atoms. nra.
Qed.

Lemma classic_bias_fpos nbrs nbrs_prev p q prev k x :
  fpos p → fpos q → fpos x → fpos (classic_bias nbrs nbrs_prev p q prev k x).
Proof.
  intros Hp Hq Hx. unfold classic_bias.
  case_decide; [by apply fdiv_fpos|]. destruct (_ && _); [by apply fdiv_fpos|done].
Qed.

Lemma extended_bias_fpos threshold nbrs prev_w avg_cur p q prev k x :
  fpos p → fpos q → fpos x → fnonneg (val_at prev_w k) →
  fpos (extended_bias threshold nbrs prev_w avg_cur p q prev k x).
Proof.
  intros Hp Hq Hx Hw. unfold extended_bias.
  destruct (in_out_candidate _ _ _ _ _) eqn:Hc.
  - apply fmul_fpos; [done|]. unfold out_bias, in_out_ratio.
    destruct (fltb x avg_cur).
    + apply fmin_fpos; [done|]. by apply fdiv_fpos.
    + unfold in_out_candidate in Hc. apply andb_true_iff in Hc as [_ Hc].
      destruct (val_at prev_w k) as [a| | |]; try done.
      destruct (ratio_range a (threshold k) Hw Hc) as (t & -> & Ht & Ht1).
      by apply smooth_bias_fpos.
  - case_decide; [by apply fdiv_fpos|done].
Qed.

Lemma mask_select_imap_Forall (P Q : fval → Prop) (f : nat → fval → fval)
    (mask : list bool) (a : list fval) :
  Forall P (mask_select mask a) →
  (∀ k x, mask !! k = Some true → a !! k = Some x → P x → Q (f k x)) →
  Forall Q (mask_select mask (imap f a)).
Proof.
  intros Ha Hf. apply mask_select_Forall. intros k y Hm.
  rewrite list_lookup_imap. destruct (a !! k) as [x|] eqn:Hx; [|done].
  intros [= <-]. apply Hf; [done..|].
  rewrite mask_select_Forall in Ha. by eapply Ha.
Qed.

Lemma wf_graph_lookup n data nonzero avg i :
  wf_graph n data nonzero avg → (i < n)%nat →
  ∃ row mask, data !! i = Some row ∧ nonzero !! i = Some mask ∧
              length row = n ∧ length mask = n.
Proof.
  intros Hwf Hi. pose proof Hwf as (Hd & Hn & _).
  destruct (lookup_lt_is_Some_2 data i) as [row Hrow]; [lia|].
  destruct (lookup_lt_is_Some_2 nonzero i) as [mask Hmask]; [lia|].
  exists row, mask. destruct (wf_graph_rows _ _ _ _ _ _ _ Hwf Hrow Hmask) as (? & ? & _).
  done.
Qed.

(** Both policies return a vector with one entry per neighbour of the
    current node, and positive weights give positive biased weights. *)
Lemma classic_unnormalized_valid n data nonzero avg p q cur prev_idx row nbrs :
  wf_graph n data nonzero avg →
  data !! cur = Some row → nonzero !! cur = Some nbrs →
  prev_ok n prev_idx → p ≠ fzero →
  ∃ u, classic_unnormalized data nonzero p q cur prev_idx = Some u ∧
       length u = count_true nbrs ∧
       (fpos p → fpos q → Forall fpos (mask_select nbrs row) → Forall fpos u).
Proof.
  intros Hwf Hd Hn Hprev Hp0.
  destruct (wf_graph_rows _ _ _ _ _ _ _ Hwf Hd Hn) as (Hlr & Hln & Hcur).
  destruct prev_idx as [prev|]; simpl in Hprev.
  - destruct (wf_graph_lookup _ _ _ _ prev Hwf Hprev) as (pw & pm & Hpw & Hpm & _).
    eexists. split; [by eapply classic_unnormalized_second_order|].
    split; [rewrite mask_select_length; [done|rewrite length_imap; lia]|].
    intros Hp Hq Hrow. eapply mask_select_imap_Forall; [done|].
    intros k x _ _ Hx. by apply classic_bias_fpos.
  - eexists. split; [by eapply classic_unnormalized_first_order|].
    split; [apply mask_select_length; lia|done].
Qed.

Lemma extended_unnormalized_valid n data nonzero avg p q cur prev_idx row nbrs :
  wf_graph n data nonzero avg →
  data !! cur = Some row → nonzero !! cur = Some nbrs →
  prev_ok n prev_idx → p ≠ fzero → q ≠ fzero →
  ∃ u, extended_unnormalized data nonzero p q cur prev_idx avg = Some u ∧
       length u = count_true nbrs ∧
       (fpos p → fpos q → Forall fpos (mask_select nbrs row) →
        Forall (Forall fnonneg) data → Forall fpos u).
Proof.
  intros Hwf Hd Hn Hprev Hp0 Hq0.
  destruct (wf_graph_rows _ _ _ _ _ _ _ Hwf Hd Hn) as (Hlr & Hln & Hcur).
  destruct prev_idx as [prev|]; simpl in Hprev.
  - destruct (wf_graph_lookup _ _ _ _ prev Hwf Hprev) as (pw & pm & Hpw & Hpm & Hlw & _).
    eexists. split; [by eapply extended_unnormalized_second_order|].
    split; [rewrite mask_select_length; [done|rewrite length_imap; lia]|].
    intros Hp Hq Hrow Hdata. eapply mask_select_imap_Forall; [done|].
    intros k x _ Hk Hx. apply extended_bias_fpos; [done..|].
    rewrite Forall_lookup in Hdata. specialize (Hdata _ _ Hpw).
    rewrite Forall_lookup in Hdata.
    destruct (lookup_lt_is_Some_2 pw k) as [w Hw];
      [apply lookup_lt_Some in Hk; lia|].
    rewrite (val_at_lookup _ _ _ Hw). by eapply Hdata.
  - eexists. split; [by eapply extended_unnormalized_first_order|].
    split; [apply mask_select_length; lia|done].
Qed.

Lemma triangle_wf avg : length avg = 3%nat → wf_graph 3 triangle_data triangle_nonzero avg.
Proof.
  intros Havg. unfold wf_graph, triangle_data, triangle_nonzero.
  repeat split; try done; repeat constructor.
Qed.


(** ** Valid calls *)



(** ** Degenerate calls *)



Lemma isolated_wf avg : length avg = 2%nat → wf_graph 2 isolated_data isolated_nonzero avg.
Proof.
  intros Havg. unfold wf_graph, isolated_data, isolated_nonzero.
  repeat split; try done; repeat constructor.
Qed.


(** ** Which weights are read *)

Lemma classic_unnormalized_None n data nonzero avg p q cur prev :
  wf_graph n data nonzero avg → (n ≤ prev)%nat ∨ p = fzero →
  classic_unnormalized data nonzero p q cur (Some prev) = None.
Proof.
  intros Hwf Hor. unfold classic_unnormalized.
  destruct (nonzero !! cur) as [nbrs|] eqn:Hn; [|done].
  destruct (data !! cur) as [row|] eqn:Hd; [|done]. simpl.
  destruct (wf_graph_rows _ _ _ _ _ _ _ Hwf Hd Hn) as (Hlr & Hln & Hcur).
  destruct (decide (prev < n)%nat) as [Hprev|Hprev].
  - destruct Hor as [?| ->]; [lia|].
    destruct (wf_graph_lookup _ _ _ _ prev Hwf Hprev) as (pw & pm & _ & -> & _ & Hlm).
    simpl. rewrite set_item_Some by len. simpl.
    destruct (lookup_lt_is_Some_2 row prev) as [x Hx]; [lia|].
    rewrite mask_update_lookup, list_lookup_insert_eq, Hx by len. simpl.
    by rewrite ?sdiv_zero.
  - destruct Hwf as (_ & Hnz & _). rewrite (lookup_ge_None_2 nonzero prev) by lia. done.
Qed.

Lemma extended_unnormalized_None n data nonzero avg p q cur prev :
  wf_graph n data nonzero avg → (n ≤ prev)%nat ∨ p = fzero ∨ q = fzero →
  extended_unnormalized data nonzero p q cur (Some prev) avg = None.
Proof.
  intros Hwf Hor. unfold extended_unnormalized.
  destruct (nonzero !! cur) as [nbrs|] eqn:Hn; [|done].
  destruct (data !! cur) as [row|] eqn:Hd; [|done]. simpl.
  destruct (wf_graph_rows _ _ _ _ _ _ _ Hwf Hd Hn) as (Hlr & Hln & Hcur).
  pose proof Hwf as (_ & _ & Hla & _).
  destruct (decide (prev < n)%nat) as [Hprev|Hprev].
  - destruct (wf_graph_lookup _ _ _ _ prev Hwf Hprev) as (pw & pm & -> & _ & Hlw & _).
    simpl. rewrite set_item_Some by len. simpl.
    destruct (sdiv fone q) as [inv_q|] eqn:Hq; [|done]. simpl.
    destruct (lookup_lt_is_Some_2 avg cur) as [ac ->]; [lia|]. simpl.
    rewrite alpha_packed, mask_scatter_mul_select by len.
    destruct (lookup_lt_is_Some_2 row prev) as [x Hx]; [lia|].
    rewrite scatter_pointwise_lookup, list_lookup_insert_eq, Hx by len. simpl.
    destruct (mask_update _ _ _ !! prev) as [c|]; [|done]. simpl.
    destruct Hor as [?|[->| ->]]; [lia| |].
    + by rewrite ?sdiv_zero.
    + by rewrite ?sdiv_zero in Hq.
  - destruct Hwf as (Hdl & _). rewrite (lookup_ge_None_2 data prev) by lia. done.
Qed.

Lemma fval_zero_dec (p : fval) : {p = fzero} + {p ≠ fzero}.
Proof.
  destruct p as [a| | |]; try (right; discriminate).
  destruct (decide (a = 0)) as [->|Hne]; [by left|right]. by intros [= ->].
Qed.

Lemma agree_at_val_at mask row1 row2 k :
  agree_at mask row1 row2 → mask !! k = Some true → val_at row1 k = val_at row2 k.
Proof. intros H Hk. unfold val_at. by rewrite (H k Hk). Qed.

Lemma classic_unnormalized_agree n data1 data2 nonzero avg1 avg2 p q cur prev_idx :
  wf_graph n data1 nonzero avg1 → wf_graph n data2 nonzero avg2 →
  agree_on_mask nonzero data1 data2 →
  classic_unnormalized data1 nonzero p q cur prev_idx
  = classic_unnormalized data2 nonzero p q cur prev_idx.
Proof.
  intros Hwf1 Hwf2 Hag.
  destruct (decide (cur < n)%nat) as [Hcur|Hcur].
  2: { unfold classic_unnormalized. destruct Hwf1 as (_ & Hnz & _).
       by rewrite (lookup_ge_None_2 nonzero cur) by lia. }
  destruct (wf_graph_lookup _ _ _ _ cur Hwf1 Hcur) as (row1 & nbrs & Hd1 & Hn & Hl1 & Hln).
  destruct (wf_graph_lookup _ _ _ _ cur Hwf2 Hcur) as (row2 & nbrs' & Hd2 & Hn' & Hl2 & _).
  assert (nbrs' = nbrs) as -> by congruence.
  pose proof (Hag _ _ _ _ Hn Hd1 Hd2) as Hrow.
  destruct prev_idx as [prev|].
  - destruct (decide (prev < n)%nat) as [Hprev|Hprev], (fval_zero_dec p) as [Hp|Hp].
    2: { destruct (wf_graph_lookup _ _ _ _ prev Hwf1 Hprev) as (_ & pm & _ & Hpm & _).
         erewrite !classic_unnormalized_second_order by done. f_equal.
         apply mask_select_ext; [by rewrite !length_imap; lia|].
         intros k Hk. rewrite !list_lookup_imap, (Hrow k Hk). done. }
    all: erewrite !classic_unnormalized_None by (done || (left; lia) || by right).
    all: done.
  - erewrite !classic_unnormalized_first_order by done. f_equal.
    by apply mask_select_ext; [lia|].
Qed.

Lemma extended_unnormalized_agree n data1 data2 nonzero avg p q cur prev_idx :
  wf_graph n data1 nonzero avg → wf_graph n data2 nonzero avg →
  agree_on_mask nonzero data1 data2 →
  (∀ prev nbrs w1 w2, prev_idx = Some prev → nonzero !! cur = Some nbrs →
     data1 !! prev = Some w1 → data2 !! prev = Some w2 → agree_at nbrs w1 w2) →
  extended_unnormalized data1 nonzero p q cur prev_idx avg
  = extended_unnormalized data2 nonzero p q cur prev_idx avg.
Proof.
  intros Hwf1 Hwf2 Hag Hagp.
  destruct (decide (cur < n)%nat) as [Hcur|Hcur].
  2: { unfold extended_unnormalized. destruct Hwf1 as (_ & Hnz & _).
       by rewrite (lookup_ge_None_2 nonzero cur) by lia. }
  destruct (wf_graph_lookup _ _ _ _ cur Hwf1 Hcur) as (row1 & nbrs & Hd1 & Hn & Hl1 & Hln).
  destruct (wf_graph_lookup _ _ _ _ cur Hwf2 Hcur) as (row2 & nbrs' & Hd2 & Hn' & Hl2 & _).
  assert (nbrs' = nbrs) as -> by congruence.
  pose proof (Hag _ _ _ _ Hn Hd1 Hd2) as Hrow.
  destruct prev_idx as [prev|].
  - destruct (decide (prev < n)%nat) as [Hprev|Hprev];
      [destruct (fval_zero_dec p) as [Hp|Hp]; [|destruct (fval_zero_dec q) as [Hq|Hq]]|].
    3: { destruct (wf_graph_lookup _ _ _ _ prev Hwf1 Hprev) as (w1 & _ & Hw1 & _).
         destruct (wf_graph_lookup _ _ _ _ prev Hwf2 Hprev) as (w2 & _ & Hw2 & _).
         pose proof (Hagp _ _ _ _ eq_refl Hn Hw1 Hw2) as Hw.
         erewrite !extended_unnormalized_second_order by done. f_equal.
         apply mask_select_ext; [by rewrite !length_imap; lia|].
         intros k Hk. rewrite !list_lookup_imap, (Hrow k Hk).
         destruct (row2 !! k) as [x|]; [|done]. simpl. f_equal.
         unfold extended_bias, in_out_candidate, out_bias, in_out_ratio.
         by rewrite (agree_at_val_at _ _ _ _ Hw Hk). }
    all: erewrite !extended_unnormalized_None
      by (done || (left; lia) || (right; by left) || (right; by right)).
    all: done.
  - erewrite !extended_unnormalized_first_order by done. f_equal.
    by apply mask_select_ext; [lia|].
Qed.

Lemma path_agree : agree_on_mask path_nonzero path_data path_data_stray.
Proof.
  intros i mask row1 row2 Hm H1 H2 k Hk.
  destruct i as [|[|[|i]]]; simplify_eq/=; try done.
  by destruct k as [|[|[|k]]]; simplify_eq/=.
Qed.

(** C4, as stated, fails: the two weight matrices of the path agree at
    every mask-true position, and yet their average weights differ, and so
    do the extended probabilities for one and the same average vector. *)
Lemma unmasked_weights_are_read :
  agree_on_mask path_nonzero path_data path_data_stray ∧
  get_average_weights path_data path_nonzero = [fone; fone; fone] ∧
  get_average_weights path_data_stray path_nonzero = [fq 6 1; fone; fone] ∧
  get_average_weights path_data path_nonzero
    ≠ get_average_weights path_data_stray path_nonzero ∧
  get_extended_normalized_probs path_data path_nonzero fone (fq 2 1) 1 (Some 0%nat)
    [fone; fone; fone] = Some [fq 2 3; fq 1 3] ∧
  get_extended_normalized_probs path_data_stray path_nonzero fone (fq 2 1) 1 (Some 0%nat)
    [fone; fone; fone] = Some [fq 1 2; fq 1 2] ∧
  get_extended_normalized_probs path_data path_nonzero fone (fq 2 1) 1 (Some 0%nat)
    [fone; fone; fone]
  ≠ get_extended_normalized_probs path_data_stray path_nonzero fone (fq 2 1) 1
      (Some 0%nat) [fone; fone; fone].
Proof.
  split; [exact path_agree|].
  split; [apply list_eqb_eq; by vm_compute|].
  split; [apply list_eqb_eq; by vm_compute|].
  split; [intros H; apply (f_equal Some) in H; revert H;
          apply result_eqb_neq; by vm_compute|].
  split; [by_computation|]. split; [by_computation|].
  apply result_eqb_neq. by vm_compute.
Qed.

(** C4 (amended): [get_normalized_probs] does not depend on the weights
    at the mask-false positions: on two weight matrices of the same shape
    that agree at every mask-true position it returns the same result.
    [get_extended_normalized_probs] returns the same result, for one
    average-weight vector, when the rows of the previous node moreover
    agree at the neighbours of the current node, and [get_average_weights]
    returns the same value for a node when the two rows of that node have
    the same sum over all their columns. *)
Theorem classic_ignores_unmasked_weights n data1 data2 nonzero avg1 avg2
    p q cur prev_idx :
  wf_graph n data1 nonzero avg1 → wf_graph n data2 nonzero avg2 →
  agree_on_mask nonzero data1 data2 →
  get_normalized_probs data1 nonzero p q cur prev_idx avg1
    = get_normalized_probs data2 nonzero p q cur prev_idx avg2 ∧
  (avg1 = avg2 →
   (∀ prev nbrs w1 w2, prev_idx = Some prev → nonzero !! cur = Some nbrs →
      data1 !! prev = Some w1 → data2 !! prev = Some w2 → agree_at nbrs w1 w2) →
   get_extended_normalized_probs data1 nonzero p q cur prev_idx avg1
     = get_extended_normalized_probs data2 nonzero p q cur prev_idx avg2) ∧
  (∀ i row1 row2, data1 !! i = Some row1 → data2 !! i = Some row2 →
     fsum row1 = fsum row2 →
     get_average_weights data1 nonzero !! i = get_average_weights data2 nonzero !! i).
Proof.
  intros Hwf1 Hwf2 Hag. split; [|split].
  - unfold get_normalized_probs. by erewrite classic_unnormalized_agree.
  - intros <- Hagp. unfold get_extended_normalized_probs.
    by erewrite extended_unnormalized_agree.
  - intros i row1 row2 H1 H2 Hsum.
    destruct (lookup_lt_is_Some_2 nonzero i) as [mask Hm].
    { destruct Hwf1 as (Hd & Hn & _). apply lookup_lt_Some in H1. lia. }
    rewrite (get_average_weights_lookup _ _ _ _ _ H1 Hm).
    rewrite (get_average_weights_lookup _ _ _ _ _ H2 Hm). by rewrite Hsum.
Qed.

Lemma path_wf data avg :
  data = path_data ∨ data = path_data_stray → length avg = 3%nat →
  wf_graph 3 data path_nonzero avg.
Proof.
  intros [-> | ->] Havg; unfold wf_graph, path_data, path_data_stray, path_nonzero;
    repeat split; try done; repeat constructor.
Qed.

Lemma classic_ignores_unmasked_weights_witness :
  get_normalized_probs path_data path_nonzero fone (fq 2 1) 1 (Some 0%nat)
    [fone; fone; fone]
    = get_normalized_probs path_data_stray path_nonzero fone (fq 2 1) 1 (Some 0%nat)
        [fone; fone; fone] ∧
  ([fone; fone; fone] = [fone; fone; fone] →
   (∀ prev nbrs w1 w2, Some 0%nat = Some prev → path_nonzero !! 1%nat = Some nbrs →
      path_data !! prev = Some w1 → path_data_stray !! prev = Some w2 →
      agree_at nbrs w1 w2) →
   get_extended_normalized_probs path_data path_nonzero fone (fq 2 1) 1 (Some 0%nat)
     [fone; fone; fone]
     = get_extended_normalized_probs path_data_stray path_nonzero fone (fq 2 1) 1
         (Some 0%nat) [fone; fone; fone]) ∧
  (∀ i row1 row2, path_data !! i = Some row1 → path_data_stray !! i = Some row2 →
     fsum row1 = fsum row2 →
     get_average_weights path_data path_nonzero !! i
     = get_average_weights path_data_stray path_nonzero !! i).
Proof.
  apply (classic_ignores_unmasked_weights 3 path_data path_data_stray path_nonzero
           [fone; fone; fone] [fone; fone; fone] fone (fq 2 1) 1 (Some 0%nat)).
  - apply path_wf; [by left|reflexivity].
  - apply path_wf; [by right|reflexivity].
  - exact path_agree.
Defined.

(** ** Neutral parameters *)

Lemma fdiv_one x : fdiv x fone = x.
Proof.
  unfold fdiv, fone. destruct x as [a| | |]; try done; case_decide; try done.
  f_equal. unfold Qcdiv. by field.
Qed.

Lemma fmul_one x : fmul x fone = x.
Proof.
  unfold fmul, fone. destruct x as [a| | |]; try done. by rewrite Qcmult_1_r.
Qed.

Lemma out_bias_neutral threshold prev_w avg_cur k x t :
  in_out_ratio threshold prev_w k = Fin t →
  out_bias threshold prev_w avg_cur fone k x = fone.
Proof.
  intros Ht. unfold out_bias. rewrite Ht, fdiv_one. destruct (fltb x avg_cur); [done|].
  unfold fsub, fneg, fadd, fmul, fone. apply (f_equal Fin). ring.
Qed.

Lemma classic_bias_neutral nbrs nbrs_prev prev (row : list fval) :
  imap (classic_bias nbrs nbrs_prev fone fone prev) row = row.
Proof.
  apply list_eq. intros k. rewrite list_lookup_imap.
  destruct (row !! k) as [x|]; [|done]. simpl. f_equal. unfold classic_bias.
  case_decide; [apply fdiv_one|]. destruct (_ && _); [apply fdiv_one|done].
Qed.

Lemma extended_bias_neutral threshold nbrs prev_w avg_cur prev (row : list fval) :
  length row = length prev_w → Forall fnonneg prev_w →
  imap (extended_bias threshold nbrs prev_w avg_cur fone fone prev) row = row.
Proof.
  intros Hlen Hw. apply list_eq. intros k. rewrite list_lookup_imap.
  destruct (row !! k) as [x|] eqn:Hx; [|done]. simpl. f_equal. unfold extended_bias.
  destruct (in_out_candidate _ _ _ _ _) eqn:Hc.
  - unfold in_out_candidate in Hc. apply andb_true_iff in Hc as [_ Hc].
    destruct (lookup_lt_is_Some_2 prev_w k) as [w Hwk];
      [apply lookup_lt_Some in Hx; lia|].
    rewrite Forall_lookup in Hw. specialize (Hw _ _ Hwk).
    rewrite (val_at_lookup _ _ _ Hwk) in Hc. destruct w as [a| | |]; try done.
    destruct (ratio_range a (threshold k) Hw Hc) as (t & Ht & _).
    erewrite out_bias_neutral; [apply fmul_one|].
    unfold in_out_ratio. by rewrite (val_at_lookup _ _ _ Hwk).
  - case_decide; [apply fdiv_one|done].
Qed.

(** C9: with [p = 1] and [q = 1], on non-negative finite weights, the
    classic and the extended policy return, with a previous node, what they
    return without one: the masked weights of the current node divided by
    their sum.  On the triangle with unit weights, from node 0 to node 1,
    both return 1/2 for node 0 and 1/2 for node 2. *)
Theorem neutral_parameters_unbiased n data nonzero avg cur prev row nbrs prev_w :
  wf_graph n data nonzero avg →
  data !! cur = Some row → nonzero !! cur = Some nbrs →
  data !! prev = Some prev_w → Forall fnonneg prev_w →
  (get_normalized_probs data nonzero fone fone cur (Some prev) avg
     = Some (normalize (mask_select nbrs row)) ∧
   get_extended_normalized_probs data nonzero fone fone cur (Some prev) avg
     = Some (normalize (mask_select nbrs row)) ∧
   get_normalized_probs data nonzero fone fone cur None avg
     = Some (normalize (mask_select nbrs row)) ∧
   get_extended_normalized_probs data nonzero fone fone cur None avg
     = Some (normalize (mask_select nbrs row))) ∧
  get_normalized_probs triangle_data triangle_nonzero fone fone 1 (Some 0%nat)
    (get_average_weights triangle_data triangle_nonzero) = Some [fq 1 2; fq 1 2] ∧
  get_extended_normalized_probs triangle_data triangle_nonzero fone fone 1 (Some 0%nat)
    (get_average_weights triangle_data triangle_nonzero) = Some [fq 1 2; fq 1 2].
Proof.
  intros Hwf Hd Hn Hp Hw.
  destruct (wf_graph_rows _ _ _ _ _ _ _ Hwf Hd Hn) as (Hlr & Hln & Hcur).
  assert (prev < n)%nat as Hprev.
  { destruct Hwf as (Hdl & _). apply lookup_lt_Some in Hp. lia. }
  destruct (wf_graph_lookup _ _ _ _ prev Hwf Hprev) as (pw & pm & Hpw & Hpm & Hlw & _).
  assert (pw = prev_w) as -> by congruence.
  split; [|split; by_computation].
  unfold get_normalized_probs, get_extended_normalized_probs.
  erewrite classic_unnormalized_second_order by done.
  erewrite extended_unnormalized_second_order by done.
  erewrite classic_unnormalized_first_order by done.
  erewrite extended_unnormalized_first_order by done.
  rewrite classic_bias_neutral, extended_bias_neutral by (done || lia). done.
Qed.

Lemma neutral_parameters_unbiased_witness :
  (get_normalized_probs triangle_data triangle_nonzero fone fone 1 (Some 0%nat)
     [fone; fone; fone] = Some (normalize (mask_select [true; false; true]
                                             [fone; fzero; fone])) ∧
   get_extended_normalized_probs triangle_data triangle_nonzero fone fone 1 (Some 0%nat)
     [fone; fone; fone] = Some (normalize (mask_select [true; false; true]
                                             [fone; fzero; fone])) ∧
   get_normalized_probs triangle_data triangle_nonzero fone fone 1 None
     [fone; fone; fone] = Some (normalize (mask_select [true; false; true]
                                             [fone; fzero; fone])) ∧
   get_extended_normalized_probs triangle_data triangle_nonzero fone fone 1 None
     [fone; fone; fone] = Some (normalize (mask_select [true; false; true]
                                             [fone; fzero; fone]))) ∧
  get_normalized_probs triangle_data triangle_nonzero fone fone 1 (Some 0%nat)
    (get_average_weights triangle_data triangle_nonzero) = Some [fq 1 2; fq 1 2] ∧
  get_extended_normalized_probs triangle_data triangle_nonzero fone fone 1 (Some 0%nat)
    (get_average_weights triangle_data triangle_nonzero) = Some [fq 1 2; fq 1 2].
Proof.
  apply (neutral_parameters_unbiased 3 triangle_data triangle_nonzero
           [fone; fone; fone] 1 0 [fone; fzero; fone] [true; false; true]
           [fzero; fone; fone]); try reflexivity.
  - by apply triangle_wf.
  - repeat constructor; by vm_compute.
Defined.

(** ** A previous node that is not a neighbour *)



Lemma mask_select_imap_ext (f g : nat → fval → fval) (mask : list bool) (a : list fval) :
  (∀ k x, mask !! k = Some true → a !! k = Some x → f k x = g k x) →
  mask_select mask (imap f a) = mask_select mask (imap g a).
Proof.
  intros H. apply mask_select_ext; [by rewrite !length_imap|].
  intros k Hk. rewrite !list_lookup_imap. destruct (a !! k) as [x|] eqn:Hx; [|done].
  simpl. f_equal. by apply H.
Qed.



(** ** Probability of a set of nodes *)










(** ** Monotonicity in [p] and in [q] *)



Lemma slot_of_lt (nbrs : list bool) j :
  nbrs !! j = Some true → (slot_of nbrs j < count_true nbrs)%nat.
Proof.
  unfold slot_of. revert j. induction nbrs as [|b nbrs IH]; intros [|j] Hj;
    simplify_eq/=.
  - rewrite count_true_cons. unfold count_true. simpl. lia.
  - rewrite !count_true_cons. specialize (IH j Hj). destruct b; lia.
Qed.















(** ** The in-out parameter *)









(** * Further properties of the source *)

(** ** [has_nbrs] *)

Lemma has_nbrs_lookup nonzero idx row :
  nonzero !! idx = Some row → has_nbrs nonzero idx = Some (existsb id row).
Proof. intros H. unfold has_nbrs. by rewrite H. Qed.

Lemma existsb_id_count (row : list bool) :
  existsb id row = bool_decide (0 < count_true row)%nat.
Proof.
  induction row as [|b row IH]; [done|].
  rewrite count_true_cons. destruct b; [|done].
  symmetry. apply bool_decide_eq_true_2. lia.
Qed.

Lemma existsb_id_lookup (row : list bool) :
  existsb id row = true ↔ ∃ j, row !! j = Some true.
Proof.
  rewrite existsb_exists. split.
  - intros (b & Hin & Hb). unfold id in Hb. subst b.
    by apply list_elem_of_In, list_elem_of_lookup in Hin.
  - intros Hj. exists true. split; [|done].
    by apply list_elem_of_In, list_elem_of_lookup.
Qed.


(** X1: [has_nbrs] answers true exactly when some cell of the row of the
    node is true, that is, when the neighbour count that
    [get_average_weights] divides by is not zero. *)
Theorem has_nbrs_scan (nonzero : list (list bool)) idx row :
  nonzero !! idx = Some row →
  (has_nbrs nonzero idx = Some true ↔ ∃ j, row !! j = Some true) ∧
  has_nbrs nonzero idx = Some (bool_decide (0 < count_true row)%nat).
Proof.
  intros H. rewrite (has_nbrs_lookup _ _ _ H). split.
  - rewrite <-existsb_id_lookup. split; [by intros [= ->]|by intros ->].
  - by rewrite existsb_id_count.
Qed.

Lemma has_nbrs_scan_witness :
  (has_nbrs isolated_nonzero 1 = Some true ↔ ∃ j, [false; true] !! j = Some true) ∧
  has_nbrs isolated_nonzero 1 = Some (bool_decide (0 < count_true [false; true])%nat).
Proof. apply (has_nbrs_scan isolated_nonzero 1 [false; true]). reflexivity. Defined.


Lemma has_nbrs_false_count nonzero idx row :
  nonzero !! idx = Some row →
  has_nbrs nonzero idx = Some false ↔ count_true row = 0%nat.
Proof.
  intros H. rewrite (has_nbrs_lookup _ _ _ H), existsb_id_count.
  split.
  - intros [= Hb]. apply bool_decide_eq_false in Hb. lia.
  - intros Hc. by rewrite bool_decide_eq_false_2 by lia.
Qed.

(** X2: on a well-shaped call both policies return a vector, and that
    vector is empty exactly when [has_nbrs] answers false for the current
    node. *)
Theorem has_nbrs_guards_empty n data nonzero avg p q cur prev_idx row nbrs :
  wf_graph n data nonzero avg →
  data !! cur = Some row → nonzero !! cur = Some nbrs → prev_ok n prev_idx →
  p ≠ fzero → q ≠ fzero →
  ∃ v1 v2,
    get_normalized_probs data nonzero p q cur prev_idx avg = Some v1 ∧
    get_extended_normalized_probs data nonzero p q cur prev_idx avg = Some v2 ∧
    (v1 = [] ↔ has_nbrs nonzero cur = Some false) ∧
    (v2 = [] ↔ has_nbrs nonzero cur = Some false).
Proof.
  intros Hwf Hd Hn Hprev Hp0 Hq0.
  destruct (classic_unnormalized_valid _ _ _ _ p q _ _ _ _ Hwf Hd Hn Hprev Hp0)
    as (u1 & Hu1 & Hlen1 & _).
  destruct (extended_unnormalized_valid _ _ _ _ p q _ _ _ _ Hwf Hd Hn Hprev Hp0 Hq0)
    as (u2 & Hu2 & Hlen2 & _).
  exists (normalize u1), (normalize u2).
  unfold get_normalized_probs, get_extended_normalized_probs. rewrite Hu1, Hu2.
  rewrite (has_nbrs_false_count _ _ _ Hn), <-Hlen1.
  split; [done|]. split; [done|].
  assert (∀ u : list fval, normalize u = [] ↔ length u = 0%nat) as Hnil.
  { intros u. rewrite <-(normalize_length u). by destruct (normalize u). }
  split; [apply Hnil|]. rewrite Hlen1, <-Hlen2. apply Hnil.
Qed.

Lemma has_nbrs_guards_empty_witness :
  ∃ v1 v2,
    get_normalized_probs isolated_data isolated_nonzero fone fone 0 (Some 1%nat)
      [NaN; fzero] = Some v1 ∧
    get_extended_normalized_probs isolated_data isolated_nonzero fone fone 0
      (Some 1%nat) [NaN; fzero] = Some v2 ∧
    (v1 = [] ↔ has_nbrs isolated_nonzero 0 = Some false) ∧
    (v2 = [] ↔ has_nbrs isolated_nonzero 0 = Some false).
Proof.
  apply (has_nbrs_guards_empty 2 isolated_data isolated_nonzero [NaN; fzero]
           fone fone 0 (Some 1%nat) [fzero; fzero] [false; false]);
    try reflexivity; try discriminate.
  - by apply isolated_wf.
  - simpl. lia.
Defined.

(** ** Average weights of nodes with neighbours *)





(** ** The in-out parameter without effect *)

Lemma fone_ne0 : fone ≠ fzero.
Proof. apply fval_eqb_neq. by vm_compute. Qed.

Lemma extended_bias_unit_q threshold nbrs nbrs_prev prev_w avg_cur p prev k x :
  fnonneg (val_at prev_w k) →
  extended_bias threshold nbrs prev_w avg_cur p fone prev k x
  = classic_bias nbrs nbrs_prev p fone prev k x.
Proof.
  intros Hw. unfold extended_bias, classic_bias.
  destruct (in_out_candidate _ _ _ _ _) eqn:Hc.
  - unfold in_out_candidate in Hc.
    apply andb_true_iff in Hc as [[Hne _]%andb_true_iff Hc].
    rewrite decide_False
      by (intros ->; by rewrite bool_decide_eq_true_2 in Hne).
    destruct (val_at prev_w k) as [a| | |] eqn:Ha; try done.
    destruct (ratio_range a (threshold k) Hw Hc) as (t & Ht & _).
    erewrite out_bias_neutral by (unfold in_out_ratio; by rewrite Ha).
    rewrite fmul_one. destruct (_ && _); by rewrite ?fdiv_one.
  - case_decide; [done|]. destruct (_ && _); by rewrite ?fdiv_one.
Qed.

(** X4: with [q = 1], on non-negative finite weights, the extended
    policy returns what the classic policy returns, whatever [p] and the
    average-weight vector are. *)
Theorem extended_is_classic_at_unit_q n data nonzero avg p cur prev_idx :
  wf_graph n data nonzero avg → Forall (Forall fnonneg) data →
  get_extended_normalized_probs data nonzero p fone cur prev_idx avg
  = get_normalized_probs data nonzero p fone cur prev_idx avg.
Proof.
  intros Hwf Hdata. unfold get_extended_normalized_probs, get_normalized_probs.
  f_equal.
  destruct (decide (cur < n)%nat) as [Hcur|Hcur].
  2: { unfold extended_unnormalized, classic_unnormalized.
       destruct Hwf as (_ & Hnz & _).
       by rewrite (lookup_ge_None_2 nonzero cur) by lia. }
  destruct (wf_graph_lookup _ _ _ _ cur Hwf Hcur) as (row & nbrs & Hd & Hn & Hlr & Hln).
  destruct prev_idx as [prev|].
  2: { erewrite extended_unnormalized_first_order by done.
       by erewrite classic_unnormalized_first_order by done. }
  destruct (decide (prev < n)%nat) as [Hprev|Hprev], (fval_zero_dec p) as [Hp|Hp].
  2: { destruct (wf_graph_lookup _ _ _ _ prev Hwf Hprev) as (pw & pm & Hpw & Hpm & Hlw & _).
       erewrite extended_unnormalized_second_order by (done || apply fone_ne0).
       erewrite classic_unnormalized_second_order by done. f_equal.
       apply mask_select_imap_ext. intros k x Hk _. apply extended_bias_unit_q.
       destruct (lookup_lt_is_Some_2 pw k) as [w Hw];
         [apply lookup_lt_Some in Hk; lia|].
       rewrite (val_at_lookup _ _ _ Hw).
       rewrite Forall_lookup in Hdata. specialize (Hdata _ _ Hpw).
       rewrite Forall_lookup in Hdata. by eapply Hdata. }
  all: erewrite extended_unnormalized_None
    by (done || (left; lia) || (right; by left)).
  all: by erewrite classic_unnormalized_None by (done || (left; lia) || by right).
Qed.

Lemma extended_is_classic_at_unit_q_witness :
  get_extended_normalized_probs weighted_data triangle_nonzero (fq 1 2) fone 1
    (Some 0%nat) (get_average_weights weighted_data triangle_nonzero)
  = get_normalized_probs weighted_data triangle_nonzero (fq 1 2) fone 1
      (Some 0%nat) (get_average_weights weighted_data triangle_nonzero).
Proof.
  apply (extended_is_classic_at_unit_q 3 weighted_data triangle_nonzero
           (get_average_weights weighted_data triangle_nonzero) (fq 1 2) 1
           (Some 0%nat)).
  - exact weighted_wf.
  - unfold weighted_data. repeat constructor; by vm_compute.
Defined.

(** X5: when every neighbour of the current node other than the
    previous node is a neighbour of the previous node too, the classic
    policy returns the same result for all values of [q]. *)
Theorem q_irrelevant_without_non_common n data nonzero avg p q1 q2 cur prev
    nbrs nbrs_prev :
  wf_graph n data nonzero avg →
  nonzero !! cur = Some nbrs → nonzero !! prev = Some nbrs_prev →
  (∀ k, nbrs !! k = Some true → k = prev ∨ nbrs_prev !! k = Some true) →
  get_normalized_probs data nonzero p q1 cur (Some prev) avg
  = get_normalized_probs data nonzero p q2 cur (Some prev) avg.
Proof.
  intros Hwf Hn Hpm Hcommon. unfold get_normalized_probs. f_equal.
  assert (cur < n)%nat as Hcur.
  { destruct Hwf as (_ & Hnz & _). apply lookup_lt_Some in Hn. lia. }
  destruct (wf_graph_lookup _ _ _ _ cur Hwf Hcur) as (row & nbrs' & Hd & Hn' & _).
  assert (nbrs' = nbrs) as -> by congruence.
  destruct (fval_zero_dec p) as [Hp|Hp].
  { by erewrite !classic_unnormalized_None by (done || by right). }
  erewrite !classic_unnormalized_second_order by done. f_equal.
  apply mask_select_imap_ext. intros k x Hk _. unfold classic_bias.
  case_decide as Hkp; [done|].
  destruct (Hcommon k Hk) as [?|Hc]; [done|].
  by rewrite (mask_at_lookup _ _ _ Hc), andb_false_r.
Qed.

Lemma q_irrelevant_without_non_common_witness :
  get_normalized_probs triangle_data triangle_nonzero (fq 1 2) (fq 1 3) 1
    (Some 0%nat) [fone; fone; fone]
  = get_normalized_probs triangle_data triangle_nonzero (fq 1 2) (fq 7 1) 1
      (Some 0%nat) [fone; fone; fone].
Proof.
  apply (q_irrelevant_without_non_common 3 triangle_data triangle_nonzero
           [fone; fone; fone] (fq 1 2) (fq 1 3) (fq 7 1) 1 0
           [true; false; true] [false; true; true]); try reflexivity.
  - by apply triangle_wf.
  - intros [|[|[|k]]] Hk; simplify_eq/=; [by left|by right].
Defined.

(** ** Bounds on the probabilities *)








(** ** Unweighted graphs *)











(** ** The extended bias lies between the two classic biases *)

Lemma mask_select_lookup_slot {A} (nbrs : list bool) (a : list A) k :
  nbrs !! k = Some true → length a = length nbrs →
  mask_select nbrs a !! slot_of nbrs k = a !! k.
Proof.
  unfold slot_of. revert a k.
  induction nbrs as [|b nbrs IH]; intros [|x a] [|k] Hk Hlen; simplify_eq/=.
  - done.
  - rewrite count_true_cons. destruct b; simpl; apply IH; auto with lia.
Qed.







(** ** Rescaling the weights *)



















(** ** Which entry belongs to which neighbour *)

Lemma slot_of_mono (nbrs : list bool) j k :
  (j < k)%nat → nbrs !! j = Some true → (slot_of nbrs j < slot_of nbrs k)%nat.
Proof.
  unfold slot_of. revert j k.
  induction nbrs as [|b nbrs IH]; intros [|j] [|k] Hjk Hj; simplify_eq/=; try lia.
  - rewrite count_true_cons. unfold count_true at 1. simpl. lia.
  - rewrite !count_true_cons. specialize (IH j k ltac:(lia) Hj). destruct b; lia.
Qed.

(** X11: without a previous node both policies return the same vector;
    the probability of a neighbour [k] of the current node, its weight
    over the sum of the weights of the neighbours, is the entry at the
    slot that counts the neighbours before [k], and the slots follow the
    order of the nodes. *)
Theorem first_order_alignment n data nonzero avg p q cur row nbrs k x :
  wf_graph n data nonzero avg →
  data !! cur = Some row → nonzero !! cur = Some nbrs →
  nbrs !! k = Some true → row !! k = Some x →
  ∃ v, get_normalized_probs data nonzero p q cur None avg = Some v ∧
       get_extended_normalized_probs data nonzero p q cur None avg = Some v ∧
       length v = count_true nbrs ∧
       v !! slot_of nbrs k = Some (fdiv x (fsum (mask_select nbrs row))) ∧
       (slot_of nbrs k < length v)%nat ∧
       ∀ j, (j < k)%nat → nbrs !! j = Some true →
            (slot_of nbrs j < slot_of nbrs k)%nat.
Proof.
  intros Hwf Hd Hn Hk Hx.
  destruct (wf_graph_rows _ _ _ _ _ _ _ Hwf Hd Hn) as (Hlr & Hln & Hcur).
  exists (normalize (mask_select nbrs row)).
  unfold get_normalized_probs, get_extended_normalized_probs.
  erewrite classic_unnormalized_first_order by done.
  erewrite extended_unnormalized_first_order by done.
  assert (length (normalize (mask_select nbrs row)) = count_true nbrs) as Hlen.
  { rewrite normalize_length, mask_select_length; [done|lia]. }
  split; [done|]. split; [done|]. split; [done|]. split.
  - unfold normalize. rewrite list_lookup_fmap, mask_select_lookup_slot by (done || lia).
    by rewrite Hx.
  - split; [rewrite Hlen; by apply slot_of_lt|].
    intros j Hjk Hj. by apply slot_of_mono.
Qed.

Lemma first_order_alignment_witness :
  ∃ v, get_normalized_probs weighted_data triangle_nonzero fone fone 1 None
         (get_average_weights weighted_data triangle_nonzero) = Some v ∧
       get_extended_normalized_probs weighted_data triangle_nonzero fone fone 1 None
         (get_average_weights weighted_data triangle_nonzero) = Some v ∧
       length v = count_true [true; false; true] ∧
       v !! slot_of [true; false; true] 2
         = Some (fdiv (fq 4 1)
                   (fsum (mask_select [true; false; true] [fone; fzero; fq 4 1]))) ∧
       (slot_of [true; false; true] 2 < length v)%nat ∧
       ∀ j, (j < 2)%nat → [true; false; true] !! j = Some true →
            (slot_of [true; false; true] j < slot_of [true; false; true] 2)%nat.
Proof.
  apply (first_order_alignment 3 weighted_data triangle_nonzero
           (get_average_weights weighted_data triangle_nonzero) fone fone 1
           [fone; fzero; fq 4 1] [true; false; true] 2 (fq 4 1));
    try reflexivity.
  exact weighted_wf.
Defined.
